(** * Validator combinators and type-dispatch leaf rules of package [validating]

    Shallow embedding of [builtin.go].  Go closures may have side effects
    (stub validators that count their calls, factories that read outside
    state), so a validator is a state-passing function over an abstract
    world state [St]; the built-in leaf rules leave the state untouched. *)

From Stdlib Require Import List String ZArith Bool Lia Permutation.
From Stdlib Require Import Floats.SpecFloat.
Import ListNotations.
Open Scope string_scope.
Open Scope list_scope.
Open Scope Z_scope.

Set Implicit Arguments.

(** ** State passing and construction-time panics *)

Definition M (St A : Type) : Type := St -> A * St.

Definition ret {St A : Type} (a : A) : M St A := fun s => (a, s).

Definition bind {St A B : Type} (m : M St A) (k : A -> M St B) : M St B :=
  fun s => let (a, s1) := m s in k a s1.

Notation "x <- m ;; k" := (bind m (fun x => k))
  (at level 61, m at next level, right associativity).

(** A Go call either returns or panics with a message. *)
Inductive outcome (A : Type) : Type :=
| Ret (a : A)
| Panic (msg : string).

Arguments Ret {A} a.
Arguments Panic {A} msg.

Definition obind {A B : Type} (o : outcome A) (k : A -> outcome B) : outcome B :=
  match o with
  | Ret a => k a
  | Panic m => Panic m
  end.

(** ** Data model *)

(** The instant of a [time.Time]: seconds and nanoseconds elapsed since
    January 1, year 1, 00:00:00 UTC. *)
Record Time : Type := mkTime { sec : Z; nsec : Z }.

Definition IsZero (t : Time) : bool := (sec t =? 0) && (nsec t =? 0).

(** The Unix epoch, 1970-01-01T00:00:00Z, on that scale. *)
Definition unix_epoch : Time := mkTime 62135596800 0.

(** IEEE comparison of a float with the constant 0: both signed zeros
    are equal to it, a NaN is not. *)
Definition float_ne_zero (x : spec_float) : bool :=
  negb (SFeqb x (S754_zero false)).

Definition not_nil {A : Type} (o : option A) : bool :=
  match o with
  | Some _ => true
  | None => false
  end.

Definition len {A : Type} (l : list A) : Z := Z.of_nat (List.length l).

Definition strlen (s : string) : Z := Z.of_nat (String.length s).

(** The dynamic type of [Field.ValuePtr] together with the value it
    points to.  [PT v] is a [*T] pointing to [v]; [PPT o] is a [**T]
    whose target is the nil pointer ([None]) or a pointer to a value;
    [PST l] is a [*[]T].  [POther] stands for every other dynamic type,
    the nil interface included. *)
Inductive Ptr : Type :=
| PUint8 (v : Z) | PPUint8 (o : option Z) | PSUint8 (l : list Z)
| PUint16 (v : Z) | PPUint16 (o : option Z) | PSUint16 (l : list Z)
| PUint32 (v : Z) | PPUint32 (o : option Z) | PSUint32 (l : list Z)
| PUint64 (v : Z) | PPUint64 (o : option Z) | PSUint64 (l : list Z)
| PInt8 (v : Z) | PPInt8 (o : option Z) | PSInt8 (l : list Z)
| PInt16 (v : Z) | PPInt16 (o : option Z) | PSInt16 (l : list Z)
| PInt32 (v : Z) | PPInt32 (o : option Z) | PSInt32 (l : list Z)
| PInt64 (v : Z) | PPInt64 (o : option Z) | PSInt64 (l : list Z)
| PFloat32 (v : spec_float) | PPFloat32 (o : option spec_float)
| PSFloat32 (l : list spec_float)
| PFloat64 (v : spec_float) | PPFloat64 (o : option spec_float)
| PSFloat64 (l : list spec_float)
| PUint (v : Z) | PPUint (o : option Z) | PSUint (l : list Z)
| PInt (v : Z) | PPInt (o : option Z) | PSInt (l : list Z)
| PBool (v : bool) | PPBool (o : option bool) | PSBool (l : list bool)
| PString (v : string) | PPString (o : option string)
| PSString (l : list string)
| PTime (v : Time) | PPTime (o : option Time) | PSTime (l : list Time)
| POther (dyntype : string).

(** Modelled from the spec: the field reference [Field], a name paired
    with a value reference, and its construction helper [F]. *)
Record Field : Type := F { Name : string; ValuePtr : Ptr }.

(** Modelled from the spec: the error record [Error], a field name
    paired with a message. *)
Record Error : Type := NewError { ErrField : string; ErrMessage : string }.

(** Modelled from the spec: the error collection [Errors], a Go slice of
    error records.  [None] is the nil slice (success); [Some l] is a
    non-nil slice, which may hold no record. *)
Definition Errors : Type := option (list Error).

Definition is_nil (e : Errors) : bool :=
  match e with
  | None => true
  | Some _ => false
  end.

Definition records (e : Errors) : list Error :=
  match e with
  | None => []
  | Some l => l
  end.

(** Modelled from the spec: [NewErrors(fieldName, message)], the
    collection holding the single record given. *)
Definition NewErrors (field msg : string) : Errors :=
  Some [NewError field msg].

(** Modelled from the spec: [Extend(other)], the ordered append of
    [other]'s records to the receiver, as Go's [append] does it:
    appending no record leaves the receiver as it is, nil included. *)
Definition Extend (e other : Errors) : Errors :=
  match records other with
  | [] => e
  | x :: l => Some (records e ++ x :: l)
  end.

Section Validating.

Variable St : Type.

(** The [Validator] interface; [FromFunc] wraps a function into the one
    implementation, [funcValidator]. *)
Record Validator : Type := FromFunc { Validate : Field -> M St Errors }.

(** A schema maps fields to validators.  It is kept as the list of its
    entries, in the order the runtime ranges over them. *)
Definition Schema : Type := list (Field * Validator).

(** ** Combinators *)

Fixpoint All_loop (validators : list Validator) (field : Field) : M St Errors :=
  match validators with
  | [] => ret None
  | v :: rest =>
      errs <- Validate v field ;;
      if is_nil errs then All_loop rest field else ret errs
  end.

Definition All (validators : list Validator) : Validator :=
  FromFunc (fun field => All_loop validators field).

Definition And := All.

Fixpoint Any_loop (validators : list Validator) (errs : Errors)
    (field : Field) : M St Errors :=
  match validators with
  | [] => ret errs
  | v :: rest =>
      err <- Validate v field ;;
      if is_nil err then ret None
      else Any_loop rest (Extend errs err) field
  end.

Definition Any (validators : list Validator) : Validator :=
  FromFunc (fun field => Any_loop validators None field).

Definition Or := Any.

(** Modelled from the spec: the package-level [Validate(schema)], which
    ranges over all the entries of the schema, invokes each entry's
    validator on its field and concatenates the error collections of
    the entries that failed; nil when none failed. *)
Fixpoint Validate_schema_loop (entries : Schema) (errs : Errors) : M St Errors :=
  match entries with
  | [] => ret errs
  | (f, v) :: rest =>
      err <- Validate v f ;;
      Validate_schema_loop rest (if is_nil err then errs else Extend errs err)
  end.

Definition Validate_schema (schema : Schema) : M St Errors :=
  Validate_schema_loop schema None.

(** The key under which [Nested] files an inner entry. *)
Definition nested_field (field f : Field) : Field :=
  F (Name field ++ "." ++ Name f)%string (ValuePtr f).

(** The loop of [Nested] inserts one entry per entry of [schema] into a
    fresh map; distinct keys stay distinct ([nested_field_inj] below), so
    no insertion overwrites another and the result is the image of the
    entries. *)
Definition nestedSchema (field : Field) (schema : Schema) : Schema :=
  map (fun e : Field * Validator => (nested_field field (fst e), snd e)) schema.

Definition Nested (schema : Schema) : Validator :=
  FromFunc (fun field => Validate_schema (nestedSchema field schema)).

Fixpoint NestedMulti_loop (validators : list Validator) (errs : Errors)
    (field : Field) : M St Errors :=
  match validators with
  | [] => ret errs
  | v :: rest =>
      err <- Validate v field ;;
      NestedMulti_loop rest (if is_nil err then errs else Extend errs err) field
  end.

Definition NestedMulti (f : M St (list Schema)) : M St Validator :=
  schemas <- f ;;
  let validators := map Nested schemas in
  ret (FromFunc (fun field => NestedMulti_loop validators None field)).

Definition Lazy (f : M St Validator) : Validator :=
  FromFunc (fun field => v <- f ;; Validate v field).

End Validating.

(** ** Message selection *)

Definition getMsg (validatorName defaultMsg : string) (msgs : list string)
  : outcome string :=
  match msgs with
  | [] => Ret defaultMsg
  | [m] => Ret m
  | _ => Panic (validatorName ++ " only accepts at most one `msg`!")%string
  end.

(** ** Leaf rules *)

(** The outcome of the type switch of a leaf rule: the flag [valid], or
    the collection returned at once from inside the switch. *)
Inductive switched : Type :=
| Valid (valid : bool)
| Return (errs : Errors).

Definition after_switch (field : Field) (msg : string) (sw : switched) : Errors :=
  match sw with
  | Return errs => errs
  | Valid valid => if negb valid then NewErrors (Name field) msg else None
  end.

Definition Assert_func (b : bool) (msg : string) (field : Field) : Errors :=
  if negb b then NewErrors (Name field) msg else None.

Definition Nonzero_switch (field : Field) : switched :=
  match ValuePtr field with
  | PUint8 t => Valid (negb (t =? 0))
  | PPUint8 t => Valid (not_nil t)
  | PSUint8 t => Valid (negb (len t =? 0))
  | PUint16 t => Valid (negb (t =? 0))
  | PPUint16 t => Valid (not_nil t)
  | PSUint16 t => Valid (negb (len t =? 0))
  | PUint32 t => Valid (negb (t =? 0))
  | PPUint32 t => Valid (not_nil t)
  | PSUint32 t => Valid (negb (len t =? 0))
  | PUint64 t => Valid (negb (t =? 0))
  | PPUint64 t => Valid (not_nil t)
  | PSUint64 t => Valid (negb (len t =? 0))
  | PInt8 t => Valid (negb (t =? 0))
  | PPInt8 t => Valid (not_nil t)
  | PSInt8 t => Valid (negb (len t =? 0))
  | PInt16 t => Valid (negb (t =? 0))
  | PPInt16 t => Valid (not_nil t)
  | PSInt16 t => Valid (negb (len t =? 0))
  | PInt32 t => Valid (negb (t =? 0))
  | PPInt32 t => Valid (not_nil t)
  | PSInt32 t => Valid (negb (len t =? 0))
  | PInt64 t => Valid (negb (t =? 0))
  | PPInt64 t => Valid (not_nil t)
  | PSInt64 t => Valid (negb (len t =? 0))
  | PFloat32 t => Valid (float_ne_zero t)
  | PPFloat32 t => Valid (not_nil t)
  | PSFloat32 t => Valid (negb (len t =? 0))
  | PFloat64 t => Valid (float_ne_zero t)
  | PPFloat64 t => Valid (not_nil t)
  | PSFloat64 t => Valid (negb (len t =? 0))
  | PUint t => Valid (negb (t =? 0))
  | PPUint t => Valid (not_nil t)
  | PSUint t => Valid (negb (len t =? 0))
  | PInt t => Valid (negb (t =? 0))
  | PPInt t => Valid (not_nil t)
  | PSInt t => Valid (negb (len t =? 0))
  | PBool t => Valid (negb (Bool.eqb t false))
  | PPBool t => Valid (not_nil t)
  | PSBool t => Valid (negb (len t =? 0))
  | PString t => Valid (negb (String.eqb t EmptyString))
  | PPString t => Valid (not_nil t)
  | PSString t => Valid (negb (len t =? 0))
  | PTime t => Valid (negb (IsZero t))
  | PPTime t => Valid (not_nil t)
  | PSTime t => Valid (negb (len t =? 0))
  | POther _ => Return (NewErrors (Name field) "of unrecognized type")
  end.

Definition Nonzero_func (msg : string) (field : Field) : Errors :=
  after_switch field msg (Nonzero_switch field).

Definition Len_switch (min max : Z) (field : Field) : switched :=
  match ValuePtr field with
  | PUint8 _ | PPUint8 _ | PUint16 _ | PPUint16 _
  | PUint32 _ | PPUint32 _ | PUint64 _ | PPUint64 _
  | PInt8 _ | PPInt8 _ | PInt16 _ | PPInt16 _
  | PInt32 _ | PPInt32 _ | PInt64 _ | PPInt64 _
  | PFloat32 _ | PPFloat32 _ | PFloat64 _ | PPFloat64 _
  | PUint _ | PPUint _ | PInt _ | PPInt _
  | PBool _ | PPBool _
  | PPString _
  | PTime _ | PPTime _ =>
      Return (NewErrors (Name field) "cannot use validator `Len`")
  | PSUint8 t => let l := len t in Valid ((l >=? min) && (l <=? max))
  | PSUint16 t => let l := len t in Valid ((l >=? min) && (l <=? max))
  | PSUint32 t => let l := len t in Valid ((l >=? min) && (l <=? max))
  | PSUint64 t => let l := len t in Valid ((l >=? min) && (l <=? max))
  | PSInt8 t => let l := len t in Valid ((l >=? min) && (l <=? max))
  | PSInt16 t => let l := len t in Valid ((l >=? min) && (l <=? max))
  | PSInt32 t => let l := len t in Valid ((l >=? min) && (l <=? max))
  | PSInt64 t => let l := len t in Valid ((l >=? min) && (l <=? max))
  | PSFloat32 t => let l := len t in Valid ((l >=? min) && (l <=? max))
  | PSFloat64 t => let l := len t in Valid ((l >=? min) && (l <=? max))
  | PSUint t => let l := len t in Valid ((l >=? min) && (l <=? max))
  | PSInt t => let l := len t in Valid ((l >=? min) && (l <=? max))
  | PSBool t => let l := len t in Valid ((l >=? min) && (l <=? max))
  | PString t => let l := strlen t in Valid ((l >=? min) && (l <=? max))
  | PSString t => let l := len t in Valid ((l >=? min) && (l <=? max))
  | PSTime t => let l := len t in Valid ((l >=? min) && (l <=? max))
  | POther _ => Return (NewErrors (Name field) "of an unrecognized type")
  end.

Definition Len_func (min max : Z) (msg : string) (field : Field) : Errors :=
  after_switch field msg (Len_switch min max field).

Section Leaves.

Variable St : Type.

(** A validator made from a function without side effects. *)
Definition pure_validator (f : Field -> Errors) : Validator St :=
  FromFunc (fun field => ret (f field)).

Definition Assert (b : bool) (msgs : list string) : outcome (Validator St) :=
  obind (getMsg "Assert" "is invalid" msgs)
        (fun msg => Ret (pure_validator (Assert_func b msg))).

Definition Nonzero (msgs : list string) : outcome (Validator St) :=
  obind (getMsg "Nonzero" "is zero valued" msgs)
        (fun msg => Ret (pure_validator (Nonzero_func msg))).

Definition Len (min max : Z) (msgs : list string) : outcome (Validator St) :=
  obind (getMsg "Len" "with an invalid length" msgs)
        (fun msg => Ret (pure_validator (Len_func min max msg))).

End Leaves.

(** ** Vocabulary of the specification *)

(** The value kinds of the data model: a scalar, a nullable scalar, a
    sequence of scalars, or anything else. *)
Inductive elem_kind : Type := KNumeric | KBool | KString | KTime.

Inductive scalar : Type :=
| SInt (z : Z)
| SFloat (x : spec_float)
| SBool (b : bool)
| SString (s : string)
| STime (t : Time).

Inductive value : Type :=
| VScalar (x : scalar)
| VNullable (k : elem_kind) (o : option scalar)
| VSequence (k : elem_kind) (xs : list scalar)
| VUnrecognized.

Definition kind_of_scalar (x : scalar) : elem_kind :=
  match x with
  | SInt _ | SFloat _ => KNumeric
  | SBool _ => KBool
  | SString _ => KString
  | STime _ => KTime
  end.

(** The zero value of each scalar kind: the number 0, [false], the empty
    string, the zero instant. *)
Definition scalar_is_zero (x : scalar) : bool :=
  match x with
  | SInt z => z =? 0
  | SFloat x => SFeqb x (S754_zero false)
  | SBool b => negb b
  | SString s => String.eqb s EmptyString
  | STime t => IsZero t
  end.

(** The value behind a reference, by kind. *)
Definition view (p : Ptr) : value :=
  match p with
  | PUint8 v | PUint16 v | PUint32 v | PUint64 v
  | PInt8 v | PInt16 v | PInt32 v | PInt64 v
  | PUint v | PInt v => VScalar (SInt v)
  | PFloat32 v | PFloat64 v => VScalar (SFloat v)
  | PBool v => VScalar (SBool v)
  | PString v => VScalar (SString v)
  | PTime v => VScalar (STime v)
  | PPUint8 o | PPUint16 o | PPUint32 o | PPUint64 o
  | PPInt8 o | PPInt16 o | PPInt32 o | PPInt64 o
  | PPUint o | PPInt o => VNullable KNumeric (option_map SInt o)
  | PPFloat32 o | PPFloat64 o => VNullable KNumeric (option_map SFloat o)
  | PPBool o => VNullable KBool (option_map SBool o)
  | PPString o => VNullable KString (option_map SString o)
  | PPTime o => VNullable KTime (option_map STime o)
  | PSUint8 l | PSUint16 l | PSUint32 l | PSUint64 l
  | PSInt8 l | PSInt16 l | PSInt32 l | PSInt64 l
  | PSUint l | PSInt l => VSequence KNumeric (map SInt l)
  | PSFloat32 l | PSFloat64 l => VSequence KNumeric (map SFloat l)
  | PSBool l => VSequence KBool (map SBool l)
  | PSString l => VSequence KString (map SString l)
  | PSTime l => VSequence KTime (map STime l)
  | POther _ => VUnrecognized
  end.

(** The kinds [Len] does not apply to, in the words of the
    specification: scalar numeric and boolean kinds, nullable scalar
    kinds except the nullable string, date-time and nullable date-time. *)
Definition Len_not_applicable_spec (p : Ptr) : bool :=
  match view p with
  | VScalar x =>
      match kind_of_scalar x with
      | KNumeric | KBool | KTime => true
      | KString => false
      end
  | VNullable k _ =>
      match k with
      | KNumeric | KBool | KTime => true
      | KString => false
      end
  | VSequence _ _ | VUnrecognized => false
  end.

(** The same group with every nullable scalar kind in it. *)
Definition Len_not_applicable (p : Ptr) : bool :=
  match view p with
  | VScalar x =>
      match kind_of_scalar x with
      | KNumeric | KBool | KTime => true
      | KString => false
      end
  | VNullable _ _ => true
  | VSequence _ _ | VUnrecognized => false
  end.

(** A collection that is nil or holds a record: the only results the
    accumulating loops produce. *)
Definition settled (e : Errors) : Prop := e <> Some [].

Section Evaluation.

Variable St : Type.

(** Running computations one after the other, each from the state the
    one before left, and collecting their results in order. *)
Fixpoint run_all (ms : list (M St Errors)) : M St (list Errors) :=
  match ms with
  | [] => ret []
  | m :: rest => e <- m ;; es <- run_all rest ;; ret (e :: es)
  end.

(** Every validator of a list invoked on one field. *)
Definition calls (vs : list (Validator St)) (f : Field) : list (M St Errors) :=
  map (fun v => Validate v f) vs.

(** Every validator of a schema invoked on its own field. *)
Definition entry_calls (schema : Schema St) : list (M St Errors) :=
  map (fun e => Validate (snd e) (fst e)) schema.

Definition succeeded (e : Errors) : Prop := e = None.

Definition failed (e : Errors) : Prop := e <> None.

(** Some child of [vs] succeeds when its turn comes: the children before
    it all fail, and it returns nil from the state they leave. *)
Definition some_child_succeeds (vs : list (Validator St)) (f : Field) (s : St)
  : Prop :=
  exists pre v post rs s1,
    vs = pre ++ v :: post /\
    run_all (calls pre f) s = (rs, s1) /\
    Forall failed rs /\
    succeeded (fst (Validate v f s1)).

(** A validator that files every record under the name of the field it
    is given. *)
Definition reports_own_name (v : Validator St) : Prop :=
  forall f s, Forall (fun e => ErrField e = Name f) (records (fst (Validate v f s))).

(** A validator without side effects. *)
Definition stateless (v : Validator St) : Prop :=
  forall f s, snd (Validate v f s) = s.

End Evaluation.

(** ** Stub validators over a call log *)

(** A stub that appends its name to the log and returns [result]. *)
Definition stub (name : string) (result : Errors) : Validator (list string) :=
  FromFunc (fun _ log => (result, log ++ [name])).

(** A schema factory that counts its calls. *)
Definition counting_factory (schemas : list (Schema nat)) : M nat (list (Schema nat)) :=
  fun n => (schemas, S n).

Definition address_schema (St : Type) : Schema St :=
  [ (F "city" (PString EmptyString), pure_validator St (Nonzero_func "is zero valued")) ].

(** ** Invariants of validators *)

(** The name [n] is [p] or a path below it. *)
Definition extends (p n : string) : Prop :=
  exists suffix, n = (p ++ suffix)%string.

Section Invariants.

Variable St : Type.

(** A validator whose records all carry the name of the field it is
    given or a path below it. *)
Definition reports_below (v : Validator St) : Prop :=
  forall f s,
    Forall (fun e => extends (Name f) (ErrField e))
           (records (fst (Validate v f s))).

(** A validator that never returns a non-nil collection without
    records. *)
Definition never_empty (v : Validator St) : Prop :=
  forall f s, settled (fst (Validate v f s)).

(** The state after [k] calls of a validator on one field. *)
Fixpoint validations (k : nat) (V : Validator St) (field : Field) (s : St) : St :=
  match k with
  | O => s
  | S k' => validations k' V field (snd (Validate V field s))
  end.

End Invariants.

(** A validator factory that counts its calls. *)
Definition counting_lazy (v : Validator nat) : M nat (Validator nat) :=
  fun n => (v, S n).

(** * Properties *)

(** ** Error collections *)

Lemma Extend_nil_r (e : Errors) : Extend e None = e.
Proof. reflexivity. Qed.

Lemma Extend_step (a e : Errors) :
  (if is_nil e then a else Extend a e) = Extend a e.
Proof. destruct e; reflexivity. Qed.

Lemma records_Extend (a e : Errors) :
  records (Extend a e) = records a ++ records e.
Proof.
  unfold Extend. destruct (records e) as [|x l].
  - now rewrite app_nil_r.
  - reflexivity.
Qed.

Lemma Extend_eq_nil (a e : Errors) :
  Extend a e = None <-> a = None /\ records e = [].
Proof.
  unfold Extend. destruct (records e) as [|x l]; split.
  - intros ->. now split.
  - now intros [-> _].
  - discriminate.
  - intros [_ H]. discriminate H.
Qed.

Lemma records_fold_Extend (rs : list Errors) (acc : Errors) :
  records (fold_left Extend rs acc) = records acc ++ List.concat (map records rs).
Proof.
  revert acc. induction rs as [|e rs IH]; intros acc; simpl.
  - now rewrite app_nil_r.
  - rewrite IH, records_Extend. now rewrite app_assoc.
Qed.

Lemma fold_Extend_eq_nil (rs : list Errors) (acc : Errors) :
  fold_left Extend rs acc = None <->
  acc = None /\ Forall (fun e => records e = []) rs.
Proof.
  revert acc. induction rs as [|e rs IH]; intros acc; simpl.
  - split; [intros ->; split; [reflexivity | constructor] | now intros [-> _]].
  - rewrite IH, Extend_eq_nil. split.
    + intros [[Ha He] Hrs]. split; [exact Ha | now constructor].
    + intros [Ha Hrs]. inversion Hrs; subst. now repeat split.
Qed.

Lemma Extend_settled (a e : Errors) : settled a -> settled (Extend a e).
Proof.
  unfold settled, Extend. intros Ha. destruct (records e) as [|x l].
  - exact Ha.
  - intros H. injection H as H. now destruct (records a).
Qed.

Lemma fold_Extend_settled (rs : list Errors) (acc : Errors) :
  settled acc -> settled (fold_left Extend rs acc).
Proof.
  revert acc. induction rs as [|e rs IH]; intros acc Ha; simpl.
  - exact Ha.
  - apply IH. now apply Extend_settled.
Qed.

Lemma settled_records_nil (e : Errors) :
  settled e -> (records e = [] <-> e = None).
Proof.
  unfold settled. intros Hset. destruct e as [l|]; simpl; split; intros He;
    try reflexivity.
  - subst. now contradiction Hset.
  - discriminate.
Qed.

Lemma Forall_settled_nil (rs : list Errors) :
  Forall settled rs ->
  (Forall (fun e => records e = []) rs <-> Forall (fun e => e = None) rs).
Proof.
  induction 1 as [|e rs He Hrs IH].
  - split; constructor.
  - split; intros H; inversion H; subst; constructor;
      solve [now apply settled_records_nil | now apply IH | reflexivity].
Qed.

Section Combinator_facts.

Variable St : Type.
Implicit Types (vs pre post : list (Validator St)) (v : Validator St).
Implicit Types (f : Field) (s : St) (rs : list Errors).

Lemma run_all_cons (m : M St Errors) (ms : list (M St Errors)) s :
  run_all (m :: ms) s =
  (fst (m s) :: fst (run_all ms (snd (m s))), snd (run_all ms (snd (m s)))).
Proof.
  simpl. unfold bind, ret. destruct (m s) as [e s1]. simpl.
  now destruct (run_all ms s1).
Qed.

(** *** All *)

Lemma All_loop_prefix pre rest f s rs s1 :
  run_all (calls pre f) s = (rs, s1) ->
  Forall (@succeeded) rs ->
  All_loop (pre ++ rest) f s = All_loop rest f s1.
Proof.
  revert s rs. induction pre as [|v pre IH]; intros s rs Hrun Hok.
  - simpl in Hrun. unfold ret in Hrun. now inversion Hrun.
  - unfold calls in Hrun. simpl map in Hrun. rewrite run_all_cons in Hrun.
    inversion Hrun as [[Hrs Hs1]]. subst rs. inversion Hok as [|? ? He Hrest]; subst.
    simpl. unfold bind at 1. destruct (Validate v f s) as [e s2]. simpl in *.
    unfold succeeded in He. subst e. simpl.
    eapply IH; [|exact Hrest]. unfold calls. now destruct (run_all _ s2).
Qed.

Lemma All_loop_nil_iff vs f s :
  fst (All_loop vs f s) = None <->
  Forall (@succeeded) (fst (run_all (calls vs f) s)).
Proof.
  revert s. induction vs as [|v vs IH]; intros s.
  - simpl. split; [constructor | reflexivity].
  - unfold calls. simpl map. rewrite run_all_cons. simpl All_loop.
    unfold bind at 1. destruct (Validate v f s) as [[l|] s2]; simpl.
    + split; [discriminate | intros H; inversion H; discriminate].
    + rewrite IH. split.
      * intros H. constructor; [reflexivity | exact H].
      * intros H. now inversion H.
Qed.

(** C2: [All] evaluates its children in order.  At the first child whose
    result is not nil it returns that result unchanged, in the state that
    child leaves, whatever children follow it: none of them is evaluated.
    When every child succeeds it returns nil, so it returns nil exactly
    when every child does; with no child it returns nil. *)
Theorem All_first_failure vs f s :
  (forall pre v post rs s1,
      vs = pre ++ v :: post ->
      run_all (calls pre f) s = (rs, s1) ->
      Forall (@succeeded) rs ->
      failed (fst (Validate v f s1)) ->
      Validate (All vs) f s = Validate v f s1)
  /\ (forall rs s1,
      run_all (calls vs f) s = (rs, s1) ->
      Forall (@succeeded) rs ->
      Validate (All vs) f s = (None, s1))
  /\ (succeeded (fst (Validate (All vs) f s)) <->
      Forall (@succeeded) (fst (run_all (calls vs f) s)))
  /\ Validate (All []) f s = (None, s).
Proof.
  repeat split.
  - intros pre v post rs s1 -> Hrun Hok Hfail. simpl.
    rewrite (@All_loop_prefix pre (v :: post) f s rs s1 Hrun Hok). simpl.
    unfold bind. destruct (Validate v f s1) as [[l|] s2]; simpl in *.
    + reflexivity.
    + now contradiction Hfail.
  - intros rs s1 Hrun Hok. simpl.
    rewrite <- (app_nil_r vs), (@All_loop_prefix vs [] f s rs s1 Hrun Hok).
    reflexivity.
  - apply All_loop_nil_iff.
  - apply All_loop_nil_iff.
Qed.

(** *** Any *)

Lemma Any_loop_prefix pre rest acc f s rs s1 :
  run_all (calls pre f) s = (rs, s1) ->
  Forall (@failed) rs ->
  Any_loop (pre ++ rest) acc f s = Any_loop rest (fold_left Extend rs acc) f s1.
Proof.
  revert acc s rs. induction pre as [|v pre IH]; intros acc s rs Hrun Hko.
  - simpl in Hrun. unfold ret in Hrun. now inversion Hrun.
  - unfold calls in Hrun. simpl map in Hrun. rewrite run_all_cons in Hrun.
    inversion Hrun as [[Hrs Hs1]]. subst rs. inversion Hko as [|? ? He Hrest]; subst.
    simpl. unfold bind at 1. destruct (Validate v f s) as [[l|] s2]; simpl in *.
    + eapply IH; [|exact Hrest]. unfold calls. now destruct (run_all _ s2).
    + now contradiction He.
Qed.

Lemma some_child_succeeds_cons v vs f s :
  some_child_succeeds (v :: vs) f s <->
  succeeded (fst (Validate v f s)) \/
  (failed (fst (Validate v f s)) /\
   some_child_succeeds vs f (snd (Validate v f s))).
Proof.
  unfold some_child_succeeds. split.
  - intros (pre & v0 & post & rs & s1 & Hsplit & Hrun & Hko & Hok).
    destruct pre as [|v' pre].
    + simpl in *. injection Hsplit as -> ->. unfold ret in Hrun.
      inversion Hrun; subst. now left.
    + simpl in Hsplit. injection Hsplit as -> ->.
      unfold calls in Hrun. simpl map in Hrun. rewrite run_all_cons in Hrun.
      inversion Hrun as [[Hrs Hs1]]. subst rs.
      inversion Hko as [|? ? He Hrest]; subst. right. split; [exact He|].
      exists pre, v0, post, (fst (run_all (map (fun v => Validate v f) pre)
                                   (snd (Validate v' f s)))),
        (snd (run_all (map (fun v => Validate v f) pre) (snd (Validate v' f s)))).
      repeat split; try assumption. unfold calls.
      now destruct (run_all _ (snd (Validate v' f s))).
  - intros [Hok | (He & pre & v0 & post & rs & s1 & Hsplit & Hrun & Hko & Hok)].
    + exists [], v, vs, [], s. repeat split; [constructor | exact Hok].
    + exists (v :: pre), v0, post, (fst (Validate v f s) :: rs), s1.
      repeat split.
      * simpl. now rewrite Hsplit.
      * unfold calls. simpl map. rewrite run_all_cons.
        unfold calls in Hrun. now rewrite Hrun.
      * now constructor.
      * exact Hok.
Qed.

Lemma Any_loop_nil_iff vs acc f s :
  fst (Any_loop vs acc f s) = None <->
  some_child_succeeds vs f s \/
  (acc = None /\ Forall (fun e => e = Some []) (fst (run_all (calls vs f) s))).
Proof.
  revert acc s. induction vs as [|v vs IH]; intros acc s.
  - simpl. split.
    + intros ->. right. split; [reflexivity | constructor].
    + intros [(pre & v & post & rs & s1 & Hsplit & _) | [-> _]].
      * now destruct pre.
      * reflexivity.
  - rewrite some_child_succeeds_cons. unfold calls. simpl map.
    rewrite run_all_cons. simpl Any_loop. unfold bind at 1.
    destruct (Validate v f s) as [[l|] s2]; simpl.
    + rewrite IH, Extend_eq_nil. simpl. unfold succeeded, failed, calls. split.
      * intros [Hsome | [[-> ->] Hall]].
        -- left. right. split; [discriminate | exact Hsome].
        -- right. split; [reflexivity | now constructor].
      * intros [[Hnil | [_ Hsome]] | [-> Hall]].
        -- discriminate.
        -- now left.
        -- inversion Hall as [|? ? He Hrest]; subst. injection He as ->.
           right. now repeat split.
    + split; [intros _ | reflexivity]. left. now left.
Qed.


(** C10: the combinators look at nil, not at emptiness.  When a child
    returns a collection that is not nil, empty or not, [All] returns it
    as it is and stops, and [Any] goes on to the children after it with
    the child's records appended; only on nil does [Any] stop with
    success and [All] go on.  So on a child returning a non-nil empty
    collection [All] fails with it and [Any] carries on as if the child
    were not there. *)
Theorem nil_not_emptiness_decides child rest f s :
  let e := fst (Validate child f s) in
  let s1 := snd (Validate child f s) in
  (failed e ->
     Validate (All (child :: rest)) f s = (e, s1) /\
     Validate (Any (child :: rest)) f s = Any_loop rest (Extend None e) f s1)
  /\ (succeeded e ->
     Validate (Any (child :: rest)) f s = (None, s1) /\
     Validate (All (child :: rest)) f s = Validate (All rest) f s1)
  /\ (e = Some [] ->
     failed (fst (Validate (All (child :: rest)) f s)) /\
     Validate (Any (child :: rest)) f s = Validate (Any rest) f s1).
Proof.
  simpl. unfold bind, failed, succeeded.
  destruct (Validate child f s) as [[l|] s2]; simpl.
  - split; [now split | split; [discriminate |]].
    intros Hl. injection Hl as ->. split; [discriminate | reflexivity].
  - split; [intros Hn; now contradiction Hn | split; [now split | discriminate]].
Qed.

(** *** Nested and NestedMulti *)

Lemma append_inj_r (p a b : string) : (p ++ a = p ++ b)%string -> a = b.
Proof.
  induction p as [|c p IH]; simpl; intros H.
  - exact H.
  - injection H as H. now apply IH.
Qed.

(** X16: distinct inner fields get distinct keys in the schema [Nested]
    builds, so no entry of the inner schema is lost to a collision. *)
Lemma nested_field_inj field f1 f2 :
  nested_field field f1 = nested_field field f2 -> f1 = f2.
Proof.
  unfold nested_field. destruct f1 as [n1 p1], f2 as [n2 p2]. simpl.
  intros H. injection H as Hn ->. apply append_inj_r in Hn.
  injection Hn as ->. reflexivity.
Qed.

Lemma run_all_Forall (P : Errors -> Prop) (ms : list (M St Errors)) s :
  Forall (fun m => forall t, P (fst (m t))) ms ->
  Forall P (fst (run_all ms s)).
Proof.
  revert s. induction ms as [|m ms IH]; intros s Hms.
  - constructor.
  - rewrite run_all_cons. simpl. inversion Hms; subst.
    constructor; [auto | now apply IH].
Qed.

Lemma NestedMulti_loop_run vs acc f s :
  NestedMulti_loop vs acc f s =
  (fold_left Extend (fst (run_all (calls vs f) s)) acc,
   snd (run_all (calls vs f) s)).
Proof.
  revert acc s. induction vs as [|v vs IH]; intros acc s.
  - reflexivity.
  - unfold calls. simpl map. rewrite run_all_cons. simpl.
    unfold bind at 1. destruct (Validate v f s) as [e s2]. simpl.
    rewrite Extend_step. apply IH.
Qed.

Lemma Validate_schema_loop_run (schema : Schema St) acc s :
  Validate_schema_loop schema acc s =
  (fold_left Extend (fst (run_all (entry_calls schema) s)) acc,
   snd (run_all (entry_calls schema) s)).
Proof.
  revert acc s. induction schema as [|[f v] schema IH]; intros acc s.
  - reflexivity.
  - unfold entry_calls. simpl map. rewrite run_all_cons. simpl.
    unfold bind at 1. destruct (Validate v f s) as [e s2]. simpl.
    rewrite Extend_step. apply IH.
Qed.

Lemma Nested_settled (schema : Schema St) f s :
  settled (fst (Validate (Nested schema) f s)).
Proof.
  simpl. unfold Validate_schema. rewrite Validate_schema_loop_run. simpl.
  apply fold_Extend_settled. discriminate.
Qed.

Lemma run_all_stateless (ms : list (M St Errors)) s :
  Forall (fun m => forall t, snd (m t) = t) ms ->
  run_all ms s = (map (fun m => fst (m s)) ms, s).
Proof.
  induction ms as [|m ms IH]; intros Hms.
  - reflexivity.
  - inversion Hms as [|? ? Hm Hrest]; subst. rewrite run_all_cons.
    rewrite Hm, (IH Hrest). reflexivity.
Qed.

Lemma Validate_schema_records (schema : Schema St) s :
  Forall (fun e => stateless (snd e)) schema ->
  records (fst (Validate_schema schema s)) =
  flat_map (fun e => records (fst (Validate (snd e) (fst e) s))) schema.
Proof.
  intros Hst. unfold Validate_schema. rewrite Validate_schema_loop_run.
  rewrite run_all_stateless.
  - simpl. rewrite records_fold_Extend. simpl. unfold entry_calls.
    rewrite flat_map_concat_map, !map_map. reflexivity.
  - unfold entry_calls. rewrite Forall_map.
    eapply Forall_impl; [|exact Hst]. intros [f v] Hv t. apply Hv.
Qed.

(** X15: the order in which the runtime ranges over a schema of
    validators without side effects changes the order of the records of
    [Nested] only. *)
Lemma Nested_order_irrelevant (schema schema' : Schema St) field s :
  Forall (fun e => stateless (snd e)) schema ->
  Permutation schema schema' ->
  Permutation (records (fst (Validate (Nested schema) field s)))
              (records (fst (Validate (Nested schema') field s))).
Proof.
  intros Hst Hperm.
  assert (Hst' : Forall (fun e => stateless (snd e)) schema').
  { rewrite Forall_forall in Hst |- *. intros e He. apply Hst.
    eapply Permutation_in; [symmetry; exact Hperm | exact He]. }
  simpl. rewrite !Validate_schema_records.
  - apply Permutation_flat_map. unfold nestedSchema.
    now apply Permutation_map.
  - unfold nestedSchema. rewrite Forall_map. exact Hst'.
  - unfold nestedSchema. rewrite Forall_map. exact Hst.
Qed.

(** C7: [Nested] builds, at each call, the schema that files every inner
    entry under the outer name, a dot and the inner name, with the inner
    value reference and the inner validator, and returns what the
    package-level [Validate] returns on it.  So the records of inner
    validators that report under the name they are given carry the dotted
    name, as the empty [city] under [address] does. *)
Theorem Nested_dotted_names (schema : Schema St) field s :
  Validate (Nested schema) field s =
  Validate_schema
    (map (fun e => (F (Name field ++ "." ++ Name (fst e))%string
                      (ValuePtr (fst e)), snd e)) schema) s
  /\ (Forall (fun e => reports_own_name (snd e)) schema ->
      Forall (fun r => exists inner v,
                  In (inner, v) schema /\
                  ErrField r = (Name field ++ "." ++ Name inner)%string)
             (records (fst (Validate (Nested schema) field s))))
  /\ Validate (Nested (address_schema St)) (F "address" (POther "*Address")) s =
     (Some [NewError "address.city" "is zero valued"], s).
Proof.
  split; [reflexivity | split; [|reflexivity]].
  intros Hown. simpl. unfold Validate_schema.
  rewrite Validate_schema_loop_run. simpl.
  rewrite records_fold_Extend. simpl. apply Forall_concat, Forall_map.
  apply run_all_Forall. unfold entry_calls, nestedSchema.
  rewrite !Forall_map. rewrite Forall_forall in Hown |- *.
  intros [inner v] Hin t. simpl.
  specialize (Hown _ Hin (nested_field field inner) t). simpl in Hown.
  eapply Forall_impl; [|exact Hown]. intros r Hr. now exists inner, v.
Qed.

(** C8: [NestedMulti] calls the factory once, when the validator is
    built, and holds the [Nested] validators of the schemas it returned.
    Each call of the validator evaluates every one of them, in order, and
    returns their records concatenated in that order; the result is nil
    exactly when every one of them returns nil. *)
Theorem NestedMulti_collects_all (factory : M St (list (Schema St))) s :
  let schemas := fst (factory s) in
  exists V,
    NestedMulti factory s = (V, snd (factory s)) /\
    forall field t,
      let rs := fst (run_all (calls (map (@Nested St) schemas) field) t) in
      Validate V field t =
        (fold_left Extend rs None,
         snd (run_all (calls (map (@Nested St) schemas) field) t)) /\
      records (fst (Validate V field t)) = List.concat (map records rs) /\
      (succeeded (fst (Validate V field t)) <-> Forall (@succeeded) rs).
Proof.
  unfold NestedMulti, bind. destruct (factory s) as [schemas s']. simpl.
  eexists. split; [reflexivity|]. intros field t. simpl.
  rewrite NestedMulti_loop_run. simpl. split; [reflexivity|].
  split; [now rewrite records_fold_Extend|].
  unfold succeeded at 1. rewrite fold_Extend_eq_nil.
  assert (Hset : Forall settled
            (fst (run_all (calls (map (@Nested St) schemas) field) t))).
  { apply run_all_Forall. unfold calls. rewrite !Forall_map.
    apply Forall_forall. intros sch _ t'. apply Nested_settled. }
  rewrite (Forall_settled_nil Hset). split; [now intros [_ H] | now split].
Qed.

End Combinator_facts.

(** ** Leaf rules *)

Lemma len_map (A B : Type) (g : A -> B) (l : list A) : len (map g l) = len l.
Proof. unfold len. now rewrite length_map. Qed.

Lemma len_zero_iff (A : Type) (l : list A) : (len l =? 0) = true <-> List.length l = 0%nat.
Proof. unfold len. rewrite Z.eqb_eq. lia. Qed.

Lemma in_bounds_iff (l min max : Z) :
  (l >=? min) && (l <=? max) = true <-> min <= l <= max.
Proof. rewrite andb_true_iff, Z.geb_le, Z.leb_le. lia. Qed.

Lemma after_switch_Valid (f : Field) (msg : string) (valid : bool) :
  (after_switch f msg (Valid valid) = None <-> valid = true) /\
  (after_switch f msg (Valid valid) <> None ->
   after_switch f msg (Valid valid) = NewErrors (Name f) msg).
Proof.
  destruct valid; simpl; repeat split; try discriminate; try reflexivity.
  intros H. now contradiction H.
Qed.

Lemma rule_from_getMsg (St : Type) (name default : string) (msgs : list string)
    (g : string -> Field -> Errors) (V : Validator St) :
  obind (getMsg name default msgs) (fun msg => Ret (pure_validator St (g msg)))
    = Ret V ->
  V = pure_validator St (g (hd default msgs)) /\ (List.length msgs <= 1)%nat.
Proof.
  destruct msgs as [|m [|m2 rest]]; simpl; intros H.
  - injection H as <-. split; [reflexivity | lia].
  - injection H as <-. split; [reflexivity | lia].
  - discriminate H.
Qed.

Ltac split_valid :=
  match goal with
  | |- (after_switch ?f ?m (Valid ?b) = None <-> _) /\ _ =>
      let Hiff := fresh "Hiff" in
      let Herr := fresh "Herr" in
      destruct (after_switch_Valid f m b) as [Hiff Herr];
      split; [rewrite Hiff | exact Herr]
  end.

(** C4: [Nonzero] succeeds on a scalar exactly when it differs from the
    zero value of its kind (the zero instant for a date-time, which the
    Unix epoch is not), on a nullable scalar exactly when it is present,
    on a sequence exactly when its length is not zero; when it fails on
    one of these it returns one record, with the name of the field and
    the default message or the custom one. *)
Theorem Nonzero_valid_iff_nonzero (St : Type) (msgs : list string)
    (V : Validator St) (f : Field) (s : St) :
  Nonzero St msgs = Ret V ->
  let msg := hd "is zero valued" msgs in
  let r := fst (Validate V f s) in
  snd (Validate V f s) = s /\
  IsZero unix_epoch = false /\
  match view (ValuePtr f) with
  | VScalar x =>
      (r = None <-> scalar_is_zero x = false) /\
      (r <> None -> r = NewErrors (Name f) msg)
  | VNullable _ o =>
      (r = None <-> o <> None) /\
      (r <> None -> r = NewErrors (Name f) msg)
  | VSequence _ xs =>
      (r = None <-> List.length xs <> 0%nat) /\
      (r <> None -> r = NewErrors (Name f) msg)
  | VUnrecognized => True
  end.
Proof.
  intros H. apply rule_from_getMsg in H as [-> _]. simpl.
  split; [reflexivity | split; [reflexivity |]].
  destruct f as [n p]. unfold Nonzero_func, Nonzero_switch.
  destruct p; cbn [view ValuePtr Name]; try exact I; split_valid.
  all: unfold float_ne_zero; cbn [scalar_is_zero].
  all: rewrite ?negb_true_iff, ?length_map; try reflexivity.
  all: try (destruct o; simpl; split; congruence).
  all: try (rewrite Z.eqb_neq; unfold len; lia).
  all: destruct v; simpl; split; congruence.
Qed.

(** C5: on a string or a sequence, [Len] succeeds exactly when the length
    lies between [min] and [max], both included; so with [min > max] it
    fails on every such value. *)
Theorem Len_valid_iff_in_bounds (St : Type) (min max : Z) (msgs : list string)
    (V : Validator St) (f : Field) (s : St) :
  Len St min max msgs = Ret V ->
  let r := fst (Validate V f s) in
  match view (ValuePtr f) with
  | VScalar (SString str) =>
      (r = None <-> min <= strlen str <= max) /\ (min > max -> r <> None)
  | VSequence _ xs =>
      (r = None <-> min <= len xs <= max) /\ (min > max -> r <> None)
  | _ => True
  end.
Proof.
  intros H. apply rule_from_getMsg in H as [-> _]. simpl.
  destruct f as [n p]. unfold Len_func, Len_switch.
  destruct p; cbn [view ValuePtr Name]; try exact I.
  all: rewrite ?len_map.
  all: match goal with
       | |- (after_switch ?f ?m (Valid ?b) = None <-> _) /\ _ =>
           destruct (after_switch_Valid f m b) as [Hiff _];
           rewrite Hiff, in_bounds_iff; split; [reflexivity | lia]
       end.
Qed.

(** C3, amended: the kinds on which [Len] fails at once with the fixed
    message, whatever the bounds, the message and the value, are exactly
    the scalar numeric and boolean kinds, every nullable scalar kind, the
    nullable string included, date-time and nullable date-time. *)
Theorem Len_not_applicable_kinds (p : Ptr) :
  Len_not_applicable p = true <->
  forall (min max : Z) (msg name : string),
    Len_func min max msg (F name p) = NewErrors name "cannot use validator `Len`".
Proof.
  split.
  - destruct p; cbn; intros H; try discriminate H; reflexivity.
  - intros H. specialize (H 0 0 "x" "n"). unfold Len_func, Len_switch in H.
    destruct p; cbn [ValuePtr Name] in H; try reflexivity.
    all: try match type of H with
             | after_switch _ _ (Valid ?b) = _ => destruct b
             end.
    all: discriminate H.
Qed.

(** C6: on a value of an unrecognized kind [Nonzero] and [Len] return
    one record with their fixed message, whatever message they were built
    with. *)
Theorem unrecognized_kind_fixed_message (St : Type) (min max : Z)
    (msgs : list string) (f : Field) (s : St) :
  view (ValuePtr f) = VUnrecognized ->
  (forall V, Nonzero St msgs = Ret V ->
     Validate V f s = (NewErrors (Name f) "of unrecognized type", s))
  /\ (forall V, Len St min max msgs = Ret V ->
     Validate V f s = (NewErrors (Name f) "of an unrecognized type", s)).
Proof.
  intros Hk. split; intros V H; apply rule_from_getMsg in H as [-> _].
  all: destruct f as [n p]; destruct p; try discriminate Hk; reflexivity.
Qed.

(** C9: with no message a leaf rule uses its default message, with one
    message it uses that one, and with more than one its construction
    panics: no validator is returned. *)
Theorem getMsg_at_most_one (St : Type) (b : bool) (min max : Z) :
  (forall name default, getMsg name default [] = Ret default)
  /\ (forall name default m, getMsg name default [m] = Ret m)
  /\ (forall name default msgs, (List.length msgs > 1)%nat ->
        getMsg name default msgs =
        Panic (name ++ " only accepts at most one `msg`!")%string)
  /\ (Assert St b [] = Ret (pure_validator St (Assert_func b "is invalid")) /\
      Nonzero St [] = Ret (pure_validator St (Nonzero_func "is zero valued")) /\
      Len St min max [] =
        Ret (pure_validator St (Len_func min max "with an invalid length")))
  /\ (forall m,
      Assert St b [m] = Ret (pure_validator St (Assert_func b m)) /\
      Nonzero St [m] = Ret (pure_validator St (Nonzero_func m)) /\
      Len St min max [m] = Ret (pure_validator St (Len_func min max m)))
  /\ (forall msgs, (List.length msgs > 1)%nat ->
      Assert St b msgs = Panic "Assert only accepts at most one `msg`!" /\
      Nonzero St msgs = Panic "Nonzero only accepts at most one `msg`!" /\
      Len St min max msgs = Panic "Len only accepts at most one `msg`!")
  /\ (forall msg f, Assert_func false msg f = NewErrors (Name f) msg).
Proof.
  repeat split; try reflexivity.
  all: intros; destruct msgs as [|m1 [|m2 rest]]; simpl in *; try lia.
  all: reflexivity.
Qed.

(** The leaf rules report under the name of the field they are given. *)
Lemma after_switch_own_name (f : Field) (msg : string) (sw : switched) :
  (forall errs, sw = Return errs -> exists m, errs = NewErrors (Name f) m) ->
  Forall (fun e => ErrField e = Name f) (records (after_switch f msg sw)).
Proof.
  destruct sw as [[|]|errs]; simpl; intros H.
  - constructor.
  - repeat constructor.
  - destruct (H errs eq_refl) as [m ->]. repeat constructor.
Qed.

Lemma Nonzero_reports_own_name (St : Type) (msg : string) :
  reports_own_name (pure_validator St (Nonzero_func msg)).
Proof.
  intros f s. simpl. apply after_switch_own_name.
  unfold Nonzero_switch. destruct (ValuePtr f); intros errs H;
    try discriminate H. injection H as <-. now eexists.
Qed.

Lemma Len_reports_own_name (St : Type) (min max : Z) (msg : string) :
  reports_own_name (pure_validator St (Len_func min max msg)).
Proof.
  intros f s. simpl. apply after_switch_own_name.
  unfold Len_switch. destruct (ValuePtr f); intros errs H;
    try discriminate H; injection H as <-; now eexists.
Qed.

(** ** Concrete runs *)


(** [All] stops at the second stub, which fails: the third is not in the
    log. *)
Lemma All_first_failure_witness :
  Validate (All [stub "a" None; stub "b" (NewErrors "age" "is odd");
                 stub "c" (NewErrors "age" "is small")])
           (F "age" (PInt 7)) [] = (NewErrors "age" "is odd", ["a"; "b"]).
Proof.
  apply (proj1 (@All_first_failure (list string) _ (F "age" (PInt 7)) [])
           [stub "a" None] (stub "b" (NewErrors "age" "is odd"))
           [stub "c" (NewErrors "age" "is small")] [None] ["a"]).
  - reflexivity.
  - reflexivity.
  - repeat constructor.
  - discriminate.
Defined.

(** A stub returning a non-nil collection without records makes [All]
    fail, and [Any] goes on to the stub after it. *)
Lemma nil_not_emptiness_decides_witness :
  failed (fst (Validate (All [stub "a" (Some []); stub "b" None])
                 (F "age" (PInt 7)) [])) /\
  Validate (Any [stub "a" (Some []); stub "b" (NewErrors "age" "is odd")])
           (F "age" (PInt 7)) [] =
  (NewErrors "age" "is odd", ["a"; "b"]).
Proof.
  split.
  - apply (proj2 (proj2 (@nil_not_emptiness_decides (list string)
             (stub "a" (Some [])) [stub "b" None] (F "age" (PInt 7)) []))).
    reflexivity.
  - apply (proj2 (proj2 (@nil_not_emptiness_decides (list string)
             (stub "a" (Some [])) [stub "b" (NewErrors "age" "is odd")]
             (F "age" (PInt 7)) []))).
    reflexivity.
Defined.

(** Counterexample to C3 as stated: the nullable string is outside the
    group the specification describes, and [Len] still answers it with
    the fixed message. *)
Lemma Len_nullable_string_counterexample :
  Len_not_applicable_spec (PPString (Some "bob")) = false /\
  Len_func 1 5 "with an invalid length" (F "nick" (PPString (Some "bob")))
    = NewErrors "nick" "cannot use validator `Len`".
Proof. split; reflexivity. Qed.

Lemma Len_not_applicable_kinds_witness :
  Len_func 1 5 "with an invalid length" (F "nick" (PPString None))
    = NewErrors "nick" "cannot use validator `Len`".
Proof.
  apply (proj1 (Len_not_applicable_kinds (PPString None))). reflexivity.
Defined.

(** [Nonzero()] on an integer field holding 0. *)
Lemma Nonzero_valid_iff_nonzero_witness :
  fst (Validate (pure_validator unit (Nonzero_func "is zero valued"))
         (F "age" (PInt 0)) tt) = NewErrors "age" "is zero valued".
Proof.
  apply (proj2 (proj2 (proj2 (@Nonzero_valid_iff_nonzero unit [] _
           (F "age" (PInt 0)) tt eq_refl)))).
  discriminate.
Defined.

(** [Len(1, 5)] on the string [abc]. *)
Lemma Len_valid_iff_in_bounds_witness :
  fst (Validate (pure_validator unit (Len_func 1 5 "with an invalid length"))
         (F "name" (PString "abc")) tt) = None.
Proof.
  apply (proj1 (@Len_valid_iff_in_bounds unit 1 5 [] _
           (F "name" (PString "abc")) tt eq_refl)).
  cbn. lia.
Defined.

(** A custom message does not reach the record of an unrecognized kind. *)
Lemma unrecognized_kind_fixed_message_witness :
  Validate (pure_validator unit (Nonzero_func "must be set"))
    (F "address" (POther "*Address")) tt
  = (NewErrors "address" "of unrecognized type", tt).
Proof.
  apply (proj1 (@unrecognized_kind_fixed_message unit 0 0 ["must be set"]
           (F "address" (POther "*Address")) tt eq_refl)).
  reflexivity.
Defined.

(** Every record of the nested address schema carries a dotted name. *)
Lemma Nested_dotted_names_witness :
  Forall (fun r => exists inner v,
              In (inner, v) (address_schema unit) /\
              ErrField r = ("address" ++ "." ++ Name inner)%string)
    (records (fst (Validate (Nested (address_schema unit))
                     (F "address" (POther "*Address")) tt))).
Proof.
  apply (proj1 (proj2 (@Nested_dotted_names unit (address_schema unit)
           (F "address" (POther "*Address")) tt))).
  repeat constructor. apply Nonzero_reports_own_name.
Defined.

(** The factory has run once after the construction, and still once
    after two validations. *)
Lemma NestedMulti_collects_all_witness :
  exists V,
    NestedMulti (counting_factory [address_schema nat]) 0%nat = (V, 1%nat) /\
    snd (Validate V (F "address" (POther "*Address"))
           (snd (Validate V (F "address" (POther "*Address")) 1%nat))) = 1%nat.
Proof.
  destruct (@NestedMulti_collects_all nat
              (counting_factory [address_schema nat]) 0%nat)
    as (V & HV & Hcall).
  exists V. split; [exact HV|].
  rewrite !(proj1 (Hcall _ _)). reflexivity.
Defined.

(** Two messages make the construction panic. *)
Lemma getMsg_at_most_one_witness :
  Nonzero unit ["must be set"; "really"]
  = Panic "Nonzero only accepts at most one `msg`!".
Proof.
  destruct (@getMsg_at_most_one unit true 0 0) as (_ & _ & _ & _ & _ & H & _).
  apply H. simpl. lia.
Defined.

(** * Further properties of the combinators *)

Lemma Extend_Some (l : list Error) (e : Errors) :
  Extend (Some l) e = Some (l ++ records e).
Proof.
  unfold Extend. destruct (records e) as [|x r]; simpl.
  - now rewrite app_nil_r.
  - reflexivity.
Qed.

Lemma Extend_nonempty (a e : Errors) :
  records e <> [] -> Extend a e = Some (records a ++ records e).
Proof.
  unfold Extend. destruct (records e) as [|x r]; intros H.
  - now contradiction H.
  - reflexivity.
Qed.

Lemma fold_Extend_Some (rs : list Errors) (l : list Error) :
  fold_left Extend rs (Some l) = Some (l ++ List.concat (map records rs)).
Proof.
  revert l. induction rs as [|e rs IH]; intros l; simpl.
  - now rewrite app_nil_r.
  - rewrite Extend_Some, IH. now rewrite app_assoc.
Qed.

Lemma fold_Extend_nonempty (rs : list Errors) (acc : Errors) :
  List.concat (map records rs) <> [] ->
  fold_left Extend rs acc = Some (records acc ++ List.concat (map records rs)).
Proof.
  destruct acc as [l|]; [intros _; apply fold_Extend_Some|].
  induction rs as [|e rs IH]; simpl; intros H.
  - now contradiction H.
  - destruct (records e) as [|x r] eqn:He.
    + unfold Extend. rewrite He. simpl in H. now apply IH.
    + rewrite (@Extend_nonempty None e) by (rewrite He; discriminate).
      rewrite fold_Extend_Some, He. reflexivity.
Qed.

Section Composition.

Variable St : Type.
Implicit Types (vs xs ys pre post : list (Validator St)) (v : Validator St).
Implicit Types (f : Field) (s : St) (rs : list Errors).

Lemma run_all_pair (ms : list (M St Errors)) s :
  run_all ms s = (fst (run_all ms s), snd (run_all ms s)).
Proof. now destruct (run_all ms s). Qed.

Lemma All_loop_app xs ys f s :
  All_loop (xs ++ ys) f s =
  (let (e, s1) := All_loop xs f s in
   if is_nil e then All_loop ys f s1 else (e, s1)).
Proof.
  revert s. induction xs as [|v xs IH]; intros s; simpl.
  - reflexivity.
  - unfold bind. destruct (Validate v f s) as [[l|] s2]; simpl.
    + reflexivity.
    + apply IH.
Qed.

Lemma succeeds_or_all_fail vs f s :
  some_child_succeeds vs f s \/
  Forall (@failed) (fst (run_all (calls vs f) s)).
Proof.
  revert s. induction vs as [|v vs IH]; intros s.
  - right. constructor.
  - rewrite some_child_succeeds_cons. unfold calls. simpl map.
    rewrite run_all_cons. simpl.
    destruct (fst (Validate v f s)) as [l|] eqn:He.
    + destruct (IH (snd (Validate v f s))) as [Hs | Hf].
      * left. right. split; [discriminate | exact Hs].
      * right. constructor; [discriminate | exact Hf].
    + left. left. reflexivity.
Qed.

Lemma Any_loop_stops xs f s :
  some_child_succeeds xs f s ->
  exists s', forall ys acc, Any_loop (xs ++ ys) acc f s = (None, s').
Proof.
  intros (pre & v & post & rs & s1 & -> & Hrun & Hko & Hok).
  exists (snd (Validate v f s1)). intros ys acc.
  rewrite <- app_assoc. simpl app.
  rewrite (@Any_loop_prefix St pre (v :: post ++ ys) acc f s rs s1 Hrun Hko).
  simpl. unfold bind. destruct (Validate v f s1) as [[l|] s2]; simpl in *.
  - discriminate Hok.
  - reflexivity.
Qed.

Lemma Any_loop_all_fail xs ys acc f s :
  Forall (@failed) (fst (run_all (calls xs f) s)) ->
  Any_loop (xs ++ ys) acc f s =
  Any_loop ys (fold_left Extend (fst (run_all (calls xs f) s)) acc) f
           (snd (run_all (calls xs f) s)).
Proof.
  intros Hf. eapply Any_loop_prefix; [apply run_all_pair | exact Hf].
Qed.

Lemma results_settled xs f s :
  Forall (@never_empty St) xs ->
  Forall settled (fst (run_all (calls xs f) s)).
Proof.
  intros Hne. apply run_all_Forall. unfold calls. rewrite Forall_map.
  eapply Forall_impl; [|exact Hne]. intros v Hv t. apply Hv.
Qed.

Lemma failed_settled_records (e : Errors) :
  failed e -> settled e -> records e <> [].
Proof.
  unfold failed, settled. destruct e as [[|x l]|]; simpl; intros Hf Hs.
  - now contradiction Hs.
  - discriminate.
  - now contradiction Hf.
Qed.

Lemma all_fail_records_nonempty xs f s :
  xs <> [] ->
  Forall (@never_empty St) xs ->
  Forall (@failed) (fst (run_all (calls xs f) s)) ->
  List.concat (map records (fst (run_all (calls xs f) s))) <> [].
Proof.
  intros Hne Hset Hf. pose proof (results_settled f s Hset) as Hs.
  destruct xs as [|v xs]; [now contradiction Hne|].
  change (calls (v :: xs) f) with (Validate v f :: calls xs f) in Hf, Hs |- *.
  rewrite run_all_cons in Hf, Hs |- *. cbn [fst map List.concat] in Hf, Hs |- *.
  inversion Hf as [|? ? Hf1 _]; subst. inversion Hs as [|? ? Hs1 _]; subst.
  pose proof (failed_settled_records Hf1 Hs1) as Hr.
  destruct (records (fst (Validate v f s))); [now contradiction Hr|].
  simpl. discriminate.
Qed.

Lemma Any_loop_flatten_head xs ys acc f s :
  xs <> [] ->
  Forall (@never_empty St) xs ->
  Any_loop (Any xs :: ys) acc f s = Any_loop (xs ++ ys) acc f s.
Proof.
  intros Hne Hset. simpl. unfold bind.
  destruct (succeeds_or_all_fail xs f s) as [Hs | Hf].
  - destruct (Any_loop_stops Hs) as [s' Hstop].
    pose proof (Hstop [] None) as H0. rewrite app_nil_r in H0.
    rewrite H0, Hstop. reflexivity.
  - pose proof (@Any_loop_all_fail xs [] None f s Hf) as H0.
    rewrite app_nil_r in H0.
    rewrite H0, (@Any_loop_all_fail xs ys acc f s Hf). simpl.
    pose proof (@all_fail_records_nonempty xs f s Hne Hset Hf) as Hr.
    rewrite !(@fold_Extend_nonempty _ _ Hr). simpl.
    rewrite Extend_nonempty by exact Hr. reflexivity.
Qed.

(** X1: a conjunction inside a conjunction can be flattened: [All] with
    a child [All xs] behaves, result and state, as [All] with the
    children [xs] in its place. *)
Theorem All_flatten pre xs post f s :
  Validate (All (pre ++ All xs :: post)) f s =
  Validate (All (pre ++ xs ++ post)) f s.
Proof.
  simpl. rewrite !All_loop_app.
  destruct (All_loop pre f s) as [e s1]. destruct (is_nil e); [|reflexivity].
  rewrite All_loop_app. simpl. unfold bind.
  destruct (All_loop xs f s1) as [[l|] s2]; reflexivity.
Qed.

(** X2: a disjunction inside a disjunction can be flattened when the
    inner one has a child and its children never return a non-nil
    collection without records. *)
Theorem Any_flatten pre xs post f s :
  xs <> [] ->
  Forall (@never_empty St) xs ->
  Validate (Any (pre ++ Any xs :: post)) f s =
  Validate (Any (pre ++ xs ++ post)) f s.
Proof.
  intros Hne Hset. simpl.
  destruct (succeeds_or_all_fail pre f s) as [Hs | Hf].
  - destruct (Any_loop_stops Hs) as [s' Hstop]. now rewrite !Hstop.
  - rewrite (@Any_loop_all_fail pre (Any xs :: post) None f s Hf).
    rewrite (@Any_loop_all_fail pre (xs ++ post) None f s Hf).
    now apply Any_loop_flatten_head.
Qed.

(** X3: with at least one child, and children that never return a
    non-nil collection without records, [Any] succeeds exactly when some
    child succeeds. *)
Theorem Any_succeeds_iff_child_succeeds vs f s :
  vs <> [] ->
  Forall (@never_empty St) vs ->
  (succeeded (fst (Validate (Any vs) f s)) <-> some_child_succeeds vs f s).
Proof.
  intros Hne Hset. unfold succeeded at 1. simpl. rewrite Any_loop_nil_iff.
  split; [|now left]. intros [H | [_ H]]; [exact H|].
  pose proof (results_settled f s Hset) as Hs.
  destruct vs as [|v vs]; [now contradiction Hne|].
  change (calls (v :: vs) f) with (Validate v f :: calls vs f) in H, Hs.
  rewrite run_all_cons in H, Hs. cbn [fst] in H, Hs.
  inversion H as [|? ? H1 _]; subst. inversion Hs as [|? ? Hs1 _]; subst.
  now contradiction Hs1.
Qed.

(** *** Where the records of a combinator come from *)

Lemma All_loop_records (P : Error -> Prop) vs f s :
  Forall (fun v => forall t, Forall P (records (fst (Validate v f t)))) vs ->
  Forall P (records (fst (All_loop vs f s))).
Proof.
  revert s. induction vs as [|v vs IH]; intros s Hvs; simpl.
  - constructor.
  - inversion Hvs as [|? ? Hv Hrest]; subst. unfold bind.
    specialize (Hv s). destruct (Validate v f s) as [[l|] s2]; simpl in *.
    + exact Hv.
    + now apply IH.
Qed.

Lemma Any_loop_records (P : Error -> Prop) vs acc f s :
  Forall (fun v => forall t, Forall P (records (fst (Validate v f t)))) vs ->
  Forall P (records acc) ->
  Forall P (records (fst (Any_loop vs acc f s))).
Proof.
  revert acc s. induction vs as [|v vs IH]; intros acc s Hvs Hacc; simpl.
  - exact Hacc.
  - inversion Hvs as [|? ? Hv Hrest]; subst. unfold bind.
    specialize (Hv s). destruct (Validate v f s) as [[l|] s2]; simpl in *.
    + apply IH; [exact Hrest|]. rewrite records_Extend.
      apply Forall_app. now split.
    + constructor.
Qed.

Lemma fold_Extend_records (P : Error -> Prop) rs :
  Forall (fun e => Forall P (records e)) rs ->
  Forall P (records (fold_left Extend rs None)).
Proof.
  intros H. rewrite records_fold_Extend. simpl.
  apply Forall_concat. now rewrite Forall_map.
Qed.

Lemma NestedMulti_loop_records (P : Error -> Prop) vs f s :
  Forall (fun v => forall t, Forall P (records (fst (Validate v f t)))) vs ->
  Forall P (records (fst (NestedMulti_loop vs None f s))).
Proof.
  intros Hvs. rewrite NestedMulti_loop_run. simpl. apply fold_Extend_records.
  apply run_all_Forall. unfold calls. now rewrite Forall_map.
Qed.

(** The records of [Nested] are records of the inner validators, each
    run on its field under the dotted name. *)
Lemma Nested_records (Q : Field * Validator St -> Field -> Error -> Prop)
    (schema : Schema St) field s :
  Forall (fun e => forall f' t,
              Forall (Q e f') (records (fst (Validate (snd e) f' t)))) schema ->
  Forall (fun r => exists e,
              In e schema /\ Q e (nested_field field (fst e)) r)
         (records (fst (Validate (Nested schema) field s))).
Proof.
  intros Hsch. simpl. unfold Validate_schema.
  rewrite Validate_schema_loop_run. simpl. apply fold_Extend_records.
  apply run_all_Forall. unfold entry_calls, nestedSchema.
  rewrite !Forall_map. rewrite Forall_forall in Hsch |- *.
  intros e Hin t. simpl.
  specialize (Hsch _ Hin (nested_field field (fst e)) t).
  eapply Forall_impl; [|exact Hsch]. intros r Hr. now exists e.
Qed.

Lemma string_app_assoc (a b c : string) :
  ((a ++ b) ++ c = a ++ (b ++ c))%string.
Proof.
  induction a as [|x a IH]; simpl.
  - reflexivity.
  - now rewrite IH.
Qed.

Lemma string_app_nil_r (a : string) : (a ++ EmptyString)%string = a.
Proof.
  induction a as [|x a IH]; simpl.
  - reflexivity.
  - now rewrite IH.
Qed.

Lemma extends_refl (p : string) : extends p p.
Proof. exists EmptyString. now rewrite string_app_nil_r. Qed.

Lemma extends_app (p q n : string) : extends (p ++ q)%string n -> extends p n.
Proof.
  intros [suffix ->]. exists (q ++ suffix)%string. apply string_app_assoc.
Qed.

Lemma own_name_below v : reports_own_name v -> reports_below v.
Proof.
  intros Hv f s. eapply Forall_impl; [|apply (Hv f s)].
  intros e ->. apply extends_refl.
Qed.

(** *** Collections without records *)

Lemma All_loop_settled vs f s :
  Forall (@never_empty St) vs -> settled (fst (All_loop vs f s)).
Proof.
  revert s. induction vs as [|v vs IH]; intros s Hvs; simpl.
  - discriminate.
  - inversion Hvs as [|? ? Hv Hrest]; subst. unfold bind.
    specialize (Hv f s). destruct (Validate v f s) as [[l|] s2]; simpl in *.
    + exact Hv.
    + now apply IH.
Qed.

Lemma Any_loop_settled vs acc f s :
  settled acc -> settled (fst (Any_loop vs acc f s)).
Proof.
  revert acc s. induction vs as [|v vs IH]; intros acc s Hacc; simpl.
  - exact Hacc.
  - unfold bind. destruct (Validate v f s) as [[l|] s2]; simpl.
    + apply IH. now apply Extend_settled.
    + discriminate.
Qed.

(** X4: what [Any], [Nested] and [NestedMulti] return is nil or holds a
    record, whatever their children return; [All] and [Lazy] keep that
    property when their children have it. *)
Theorem never_empty_by_construction :
  (forall vs, never_empty (Any vs))
  /\ (forall schema : Schema St, never_empty (Nested schema))
  /\ (forall (factory : M St (list (Schema St))) s,
        never_empty (fst (NestedMulti factory s)))
  /\ (forall vs, Forall (@never_empty St) vs -> never_empty (All vs))
  /\ (forall factory : M St (Validator St),
        (forall s, never_empty (fst (factory s))) -> never_empty (Lazy factory)).
Proof.
  repeat split.
  - intros vs f s. simpl. apply Any_loop_settled. discriminate.
  - intros schema f s. apply Nested_settled.
  - intros factory s f t. unfold NestedMulti, bind.
    destruct (factory s) as [schemas s']. simpl.
    rewrite NestedMulti_loop_run. simpl. apply fold_Extend_settled. discriminate.
  - intros vs Hvs f s. simpl. now apply All_loop_settled.
  - intros factory Hf f s. simpl. unfold bind.
    specialize (Hf s f). destruct (factory s) as [v s1]. simpl in Hf. apply Hf.
Qed.

(** X5: [All], [Any] and [Lazy] invent no record and rename none: when
    the children file their records under the name of the field they are
    given, so does the combinator. *)
Theorem combinators_report_own_name :
  (forall vs, Forall (@reports_own_name St) vs -> reports_own_name (All vs))
  /\ (forall vs, Forall (@reports_own_name St) vs -> reports_own_name (Any vs))
  /\ (forall factory : M St (Validator St),
        (forall s, reports_own_name (fst (factory s))) ->
        reports_own_name (Lazy factory)).
Proof.
  repeat split.
  - intros vs Hvs f s. simpl. apply All_loop_records.
    eapply Forall_impl; [|exact Hvs]. intros v Hv t. apply Hv.
  - intros vs Hvs f s. simpl. apply Any_loop_records; [|constructor].
    eapply Forall_impl; [|exact Hvs]. intros v Hv t. apply Hv.
  - intros factory Hf f s. simpl. unfold bind.
    specialize (Hf s f). destruct (factory s) as [v s1]. simpl in Hf. apply Hf.
Qed.

(** X6: every record carries the name of the validated field or a dotted
    path below it, at any depth of nesting: [All], [Any], [Nested] and
    [NestedMulti] keep that property of their children. *)
Theorem nesting_reports_below :
  (forall vs, Forall (@reports_below St) vs -> reports_below (All vs))
  /\ (forall vs, Forall (@reports_below St) vs -> reports_below (Any vs))
  /\ (forall schema : Schema St,
        Forall (fun e => reports_below (snd e)) schema ->
        reports_below (Nested schema))
  /\ (forall (factory : M St (list (Schema St))) s,
        Forall (Forall (fun e => reports_below (snd e))) (fst (factory s)) ->
        reports_below (fst (NestedMulti factory s))).
Proof.
  assert (HN : forall schema : Schema St,
             Forall (fun e => reports_below (snd e)) schema ->
             reports_below (Nested schema)).
  { intros schema Hsch f s.
    eapply Forall_impl;
      [|apply (@Nested_records (fun _ f' e => extends (Name f') (ErrField e)))].
    - intros r (e & _ & Hr). unfold nested_field in Hr. simpl in Hr.
      now apply extends_app in Hr.
    - eapply Forall_impl; [|exact Hsch]. intros e He f' t. apply He. }
  repeat split.
  - intros vs Hvs f s. simpl. apply All_loop_records.
    eapply Forall_impl; [|exact Hvs]. intros v Hv t. apply Hv.
  - intros vs Hvs f s. simpl. apply Any_loop_records; [|constructor].
    eapply Forall_impl; [|exact Hvs]. intros v Hv t. apply Hv.
  - exact HN.
  - intros factory s Hsch f t. unfold NestedMulti, bind in *.
    destruct (factory s) as [schemas s']. simpl in *.
    apply NestedMulti_loop_records. rewrite Forall_map.
    eapply Forall_impl; [|exact Hsch]. intros schema Hs t'. now apply HN.
Qed.

(** X7: [Nested] inside [Nested] gives the full dotted path: a record of
    an inner validator that reports under the name it is given comes out
    under the outer name, the middle name and the inner name, joined by
    dots. *)
Theorem Nested_in_Nested (mids : list (Field * Schema St)) outer s :
  Forall (fun m => Forall (fun e => reports_own_name (snd e)) (snd m)) mids ->
  Forall (fun r => exists mid schema inner v,
              In (mid, schema) mids /\ In (inner, v) schema /\
              ErrField r =
                (Name outer ++ "." ++ Name mid ++ "." ++ Name inner)%string)
         (records (fst (Validate
                          (Nested (map (fun m => (fst m, Nested (snd m))) mids))
                          outer s))).
Proof.
  intros Hmids.
  pose (Q := fun (e : Field * Validator St) (f' : Field) (r : Error) =>
               exists mid schema inner v,
                 In (mid, schema) mids /\ In (inner, v) schema /\
                 fst e = mid /\
                 ErrField r = (Name f' ++ "." ++ Name inner)%string).
  eapply Forall_impl; [|apply (@Nested_records Q)].
  - intros r (e & _ & mid & schema & inner & v & Hm & Hi & He & Hr).
    exists mid, schema, inner, v. repeat split; try assumption.
    rewrite Hr, He. unfold nested_field. simpl.
    now rewrite !string_app_assoc.
  - rewrite Forall_map. rewrite Forall_forall in Hmids |- *.
    intros [mid schema] Hin f' t. simpl.
    eapply Forall_impl;
      [|apply (@Nested_records
                 (fun _ g r => ErrField r = Name g) schema f' t)].
    + intros r ((inner & v) & Hi & Hr). exists mid, schema, inner, v.
      repeat split; assumption.
    + specialize (Hmids _ Hin). simpl in Hmids.
      eapply Forall_impl; [|exact Hmids]. intros e He g t'. apply He.
Qed.

(** X8: [NestedMulti] over a factory that returns one schema behaves as
    [Nested] of that schema, and over a factory that returns none it
    always succeeds. *)
Theorem NestedMulti_of_one_or_none (factory : M St (list (Schema St))) s
    field t :
  (forall schema, fst (factory s) = [schema] ->
     Validate (fst (NestedMulti factory s)) field t =
     Validate (Nested schema) field t)
  /\ (fst (factory s) = [] ->
     Validate (fst (NestedMulti factory s)) field t = (None, t)).
Proof.
  unfold NestedMulti, bind. destruct (factory s) as [schemas s']. simpl.
  split.
  - intros schema ->. simpl. unfold bind.
    pose proof (Nested_settled schema field t) as Hs. simpl in Hs.
    destruct (Validate_schema (nestedSchema field schema) t)
      as [[[|x l]|] t']; simpl in *.
    + now contradiction Hs.
    + reflexivity.
    + reflexivity.
  - intros ->. reflexivity.
Qed.

(** *** Order of the children *)

Lemma some_child_succeeds_stateless vs f s :
  Forall (@stateless St) vs ->
  (some_child_succeeds vs f s <->
   Exists (fun v => succeeded (fst (Validate v f s))) vs).
Proof.
  induction vs as [|v vs IH]; intros Hst.
  - split.
    + intros (pre & v & post & rs & s1 & Hsplit & _). now destruct pre.
    + intros H. inversion H.
  - inversion Hst as [|? ? Hv Hrest]; subst.
    rewrite some_child_succeeds_cons, Hv, (IH Hrest). split.
    + intros [H | [_ H]]; [now left | now right].
    + intros H. destruct (fst (Validate v f s)) as [l|] eqn:He.
      * right. split; [discriminate|].
        inversion H as [? ? H1 | ? ? H1]; subst; [|exact H1].
        rewrite He in H1. discriminate H1.
      * left. reflexivity.
Qed.

Lemma results_stateless vs f s :
  Forall (@stateless St) vs ->
  fst (run_all (calls vs f) s) = map (fun v => fst (Validate v f s)) vs.
Proof.
  intros Hst. rewrite run_all_stateless.
  - unfold calls. simpl. now rewrite map_map.
  - unfold calls. rewrite Forall_map.
    eapply Forall_impl; [|exact Hst]. intros v Hv t. apply Hv.
Qed.

(** X9: for children without side effects, whether [All] succeeds and
    whether [Any] succeeds do not depend on the order of the children. *)
Theorem success_order_irrelevant vs vs' f s :
  Forall (@stateless St) vs ->
  Permutation vs vs' ->
  (succeeded (fst (Validate (All vs) f s)) <->
   succeeded (fst (Validate (All vs') f s)))
  /\ (succeeded (fst (Validate (Any vs) f s)) <->
      succeeded (fst (Validate (Any vs') f s))).
Proof.
  intros Hst Hperm.
  assert (Hst' : Forall (@stateless St) vs')
    by (eapply Permutation_Forall; eassumption).
  unfold succeeded. simpl. split.
  - rewrite !All_loop_nil_iff, !results_stateless by assumption.
    rewrite !Forall_map. split; apply Permutation_Forall;
      [exact Hperm | symmetry; exact Hperm].
  - rewrite !Any_loop_nil_iff, !results_stateless by assumption.
    rewrite !some_child_succeeds_stateless by assumption.
    rewrite !Forall_map.
    split; (intros [H | [_ H]]; [left | right; split; [reflexivity|]]).
    + eapply Permutation_Exists; eassumption.
    + eapply Permutation_Forall; eassumption.
    + eapply Permutation_Exists; [symmetry|]; eassumption.
    + eapply Permutation_Forall; [symmetry|]; eassumption.
Qed.

(** *** Assert among the children *)

(** X10: [Assert(true)] among the children of [All] changes nothing and
    among the children of [Any] makes it succeed; [Assert(false)] among
    the children of [All] makes it fail, and at their head makes it
    return the one record of [Assert] without evaluating the others. *)
Theorem Assert_among_children (msgs : list string) pre post f s :
  (forall Vt, Assert St true msgs = Ret Vt ->
     Validate (All (pre ++ Vt :: post)) f s = Validate (All (pre ++ post)) f s
     /\ succeeded (fst (Validate (Any (pre ++ Vt :: post)) f s)))
  /\ (forall Vf, Assert St false msgs = Ret Vf ->
     failed (fst (Validate (All (pre ++ Vf :: post)) f s))
     /\ Validate (All (Vf :: post)) f s =
        (NewErrors (Name f) (hd "is invalid" msgs), s)).
Proof.
  split; intros V HV; apply rule_from_getMsg in HV as [-> _]; split.
  - simpl. rewrite !All_loop_app.
    destruct (All_loop pre f s) as [e s1]. now destruct (is_nil e).
  - unfold succeeded. simpl.
    destruct (succeeds_or_all_fail pre f s) as [Hs | Hf].
    + destruct (Any_loop_stops Hs) as [s' Hstop]. now rewrite Hstop.
    + now rewrite (@Any_loop_all_fail pre _ None f s Hf).
  - unfold failed. simpl. rewrite All_loop_app.
    destruct (All_loop pre f s) as [[l|] s1]; simpl; discriminate.
  - reflexivity.
Qed.

End Composition.

(** * Further properties of the leaf rules *)

Lemma after_switch_accepts (f : Field) (msg : string) (b : bool) :
  after_switch f msg (Valid b) = None -> b = true.
Proof. apply (proj1 (after_switch_Valid f msg b)). Qed.

Lemma accepts_after_switch (f : Field) (msg : string) (b : bool) :
  b = true -> after_switch f msg (Valid b) = None.
Proof. apply (proj1 (after_switch_Valid f msg b)). Qed.

Lemma after_switch_cases (f : Field) (msg : string) (b : bool) :
  after_switch f msg (Valid b) = None \/
  after_switch f msg (Valid b) = NewErrors (Name f) msg.
Proof. destruct b; simpl; [now left | now right]. Qed.

(** X11: a leaf rule returns nil or exactly one record, filed under the
    name of the field, whose message is the one the rule was built with
    or one of its fixed messages. *)
Theorem leaf_rules_one_record (b : bool) (min max : Z) (msg : string)
    (f : Field) :
  (Assert_func b msg f = None \/
   Assert_func b msg f = NewErrors (Name f) msg)
  /\ (Nonzero_func msg f = None \/
      Nonzero_func msg f = NewErrors (Name f) msg \/
      Nonzero_func msg f = NewErrors (Name f) "of unrecognized type")
  /\ (Len_func min max msg f = None \/
      Len_func min max msg f = NewErrors (Name f) msg \/
      Len_func min max msg f = NewErrors (Name f) "cannot use validator `Len`" \/
      Len_func min max msg f = NewErrors (Name f) "of an unrecognized type").
Proof.
  split; [|split].
  - destruct b; simpl; [now left | now right].
  - unfold Nonzero_func, Nonzero_switch. destruct (ValuePtr f).
    all: try match goal with
             | |- after_switch ?f ?m (Valid ?b) = None \/ _ =>
                 destruct (after_switch_cases f m b) as [H | H];
                 [left; exact H | right; left; exact H]
             end.
    right. right. reflexivity.
  - unfold Len_func, Len_switch. destruct (ValuePtr f).
    all: try match goal with
             | |- after_switch ?f ?m (Valid ?b) = None \/ _ =>
                 destruct (after_switch_cases f m b) as [H | H];
                 [left; exact H | right; left; exact H]
             end.
    all: try (right; right; left; reflexivity).
    right. right. right. reflexivity.
Qed.

(** X12: a field that [Len] accepts with a lower bound of at least 1 is
    accepted by [Nonzero]; and a string or a sequence that [Nonzero]
    accepts is accepted by [Len] with lower bound 1 and some upper
    bound. *)
Theorem Len_accepts_implies_Nonzero_accepts (min max : Z) (m m' : string)
    (f : Field) :
  (1 <= min -> Len_func min max m f = None -> Nonzero_func m' f = None)
  /\ match view (ValuePtr f) with
     | VScalar (SString _) | VSequence _ _ =>
         Nonzero_func m' f = None -> exists max', Len_func 1 max' m f = None
     | _ => True
     end.
Proof.
  destruct f as [n p]. unfold Len_func, Len_switch, Nonzero_func, Nonzero_switch.
  split.
  - intros Hmin HL. destruct p; cbn [ValuePtr Name] in *; try discriminate HL.
    all: apply after_switch_accepts, in_bounds_iff in HL.
    all: apply accepts_after_switch, negb_true_iff.
    all: try (apply Z.eqb_neq; lia).
    destruct v; [cbn in HL; lia | reflexivity].
  - destruct p; cbn [view ValuePtr Name]; try exact I; intros HN.
    all: apply after_switch_accepts, negb_true_iff in HN.
    all: try (exists (len l); apply accepts_after_switch, in_bounds_iff;
              apply Z.eqb_neq in HN; unfold len in *; lia).
    exists (strlen v). apply accepts_after_switch, in_bounds_iff.
    destruct v; [discriminate HN | unfold strlen; simpl; lia].
Qed.

(** X13: widening the bounds of [Len] keeps every field it accepts, and
    with [min > max] it accepts no field of any kind. *)
Theorem Len_bounds_monotone (min max min' max' : Z) (m m' : string)
    (f : Field) :
  (min' <= min -> max <= max' ->
   Len_func min max m f = None -> Len_func min' max' m' f = None)
  /\ (min > max -> Len_func min max m f <> None).
Proof.
  destruct f as [n p]. unfold Len_func, Len_switch. split.
  - intros Hmin Hmax HL. destruct p; cbn [ValuePtr Name] in *;
      try discriminate HL.
    all: apply after_switch_accepts, in_bounds_iff in HL.
    all: apply accepts_after_switch, in_bounds_iff; lia.
  - intros Hgt HL. destruct p; cbn [ValuePtr Name] in *; try discriminate HL.
    all: apply after_switch_accepts, in_bounds_iff in HL; lia.
Qed.

(** X14: [Lazy] calls its factory once at every validation, never at
    construction, and returns what the validator it gets returns: after
    [k] validations a counting factory has counted [k] calls. *)
Theorem Lazy_calls_factory_each_time (v : Validator nat) (field : Field)
    (k n : nat) :
  stateless v ->
  validations k (Lazy (counting_lazy v)) field n = (n + k)%nat
  /\ fst (Validate (Lazy (counting_lazy v)) field n) =
     fst (Validate v field (S n)).
Proof.
  intros Hv. split; [|reflexivity].
  revert n. induction k as [|k IH]; intros n; simpl.
  - lia.
  - unfold bind, counting_lazy. rewrite Hv.
    change (validations k (Lazy (counting_lazy v)) field (S n) = (n + S k)%nat).
    rewrite IH. lia.
Qed.

(** ** Concrete runs of the further properties *)

Lemma stub_never_empty_record (name field msg : string) :
  never_empty (stub name (NewErrors field msg)).
Proof. intros f s. discriminate. Qed.

Lemma stub_never_empty_nil (name : string) : never_empty (stub name None).
Proof. intros f s. discriminate. Qed.

Lemma pure_validator_stateless (St : Type) (g : Field -> Errors) :
  stateless (pure_validator St g).
Proof. intros f s. reflexivity. Qed.

(** An inner disjunction of one failing stub, between a failing and a
    succeeding one. *)
Lemma Any_flatten_witness :
  Validate (Any ([stub "a" (NewErrors "age" "is odd")]
                 ++ Any [stub "b" (NewErrors "age" "is small")]
                 :: [stub "c" None]))
           (F "age" (PInt 7)) [] =
  Validate (Any ([stub "a" (NewErrors "age" "is odd")]
                 ++ [stub "b" (NewErrors "age" "is small")]
                 ++ [stub "c" None]))
           (F "age" (PInt 7)) [].
Proof.
  apply (@Any_flatten (list string)).
  - discriminate.
  - repeat constructor. apply stub_never_empty_record.
Defined.

Lemma Any_succeeds_iff_child_succeeds_witness :
  some_child_succeeds [stub "a" (NewErrors "age" "is odd"); stub "b" None]
                      (F "age" (PInt 7)) [].
Proof.
  apply (@Any_succeeds_iff_child_succeeds (list string)
           [stub "a" (NewErrors "age" "is odd"); stub "b" None]
           (F "age" (PInt 7)) []).
  - discriminate.
  - repeat constructor.
    + apply stub_never_empty_record.
    + apply stub_never_empty_nil.
  - reflexivity.
Defined.

Lemma never_empty_by_construction_witness :
  never_empty (All [stub "a" None; stub "b" (NewErrors "age" "is odd")]).
Proof.
  destruct (never_empty_by_construction (list string))
    as (_ & _ & _ & HAll & _).
  apply HAll. repeat constructor.
  - apply stub_never_empty_nil.
  - apply stub_never_empty_record.
Defined.

Lemma combinators_report_own_name_witness :
  reports_own_name
    (All [pure_validator unit (Nonzero_func "is zero valued");
          pure_validator unit (Len_func 1 5 "with an invalid length")]).
Proof.
  apply (proj1 (combinators_report_own_name unit)). repeat constructor.
  - apply Nonzero_reports_own_name.
  - apply Len_reports_own_name.
Defined.

Lemma nesting_reports_below_witness :
  reports_below (Nested (address_schema unit)).
Proof.
  destruct (nesting_reports_below unit) as (_ & _ & HNested & _).
  apply HNested. repeat constructor. simpl.
  apply own_name_below, Nonzero_reports_own_name.
Defined.

(** The empty city of the address of a person. *)
Lemma Nested_in_Nested_witness :
  Forall (fun r => exists mid schema inner v,
              In (mid, schema)
                 [(F "address" (POther "*Address"), address_schema unit)] /\
              In (inner, v) schema /\
              ErrField r =
                ("person" ++ "." ++ Name mid ++ "." ++ Name inner)%string)
         (records (fst (Validate
            (Nested (map (fun m => (fst m, Nested (snd m)))
                       [(F "address" (POther "*Address"),
                         address_schema unit)]))
            (F "person" (POther "*Person")) tt))).
Proof.
  apply (@Nested_in_Nested unit
           [(F "address" (POther "*Address"), address_schema unit)]
           (F "person" (POther "*Person")) tt).
  repeat constructor. simpl. apply Nonzero_reports_own_name.
Defined.

Lemma NestedMulti_of_one_or_none_witness :
  Validate (fst (NestedMulti (counting_factory [address_schema nat]) 0%nat))
           (F "address" (POther "*Address")) 1%nat =
  Validate (Nested (address_schema nat)) (F "address" (POther "*Address")) 1%nat.
Proof.
  apply (proj1 (@NestedMulti_of_one_or_none nat
                  (counting_factory [address_schema nat]) 0%nat
                  (F "address" (POther "*Address")) 1%nat)).
  reflexivity.
Defined.

Lemma success_order_irrelevant_witness :
  (succeeded (fst (Validate
      (All [pure_validator unit (Nonzero_func "is zero valued");
            pure_validator unit (Len_func 1 5 "with an invalid length")])
      (F "name" (PString "abc")) tt)) <->
   succeeded (fst (Validate
      (All [pure_validator unit (Len_func 1 5 "with an invalid length");
            pure_validator unit (Nonzero_func "is zero valued")])
      (F "name" (PString "abc")) tt)))
  /\
  (succeeded (fst (Validate
      (Any [pure_validator unit (Nonzero_func "is zero valued");
            pure_validator unit (Len_func 1 5 "with an invalid length")])
      (F "name" (PString "abc")) tt)) <->
   succeeded (fst (Validate
      (Any [pure_validator unit (Len_func 1 5 "with an invalid length");
            pure_validator unit (Nonzero_func "is zero valued")])
      (F "name" (PString "abc")) tt))).
Proof.
  apply (@success_order_irrelevant unit).
  - repeat constructor; apply pure_validator_stateless.
  - apply perm_swap.
Defined.

Lemma Assert_among_children_witness :
  Validate (All ([stub "a" None]
                 ++ pure_validator (list string) (Assert_func true "is invalid")
                 :: [stub "b" None]))
           (F "age" (PInt 7)) [] =
  Validate (All ([stub "a" None] ++ [stub "b" None])) (F "age" (PInt 7)) [].
Proof.
  apply (proj1 (@Assert_among_children (list string) []
                  [stub "a" None] [stub "b" None] (F "age" (PInt 7)) [])).
  reflexivity.
Defined.

Lemma Len_accepts_implies_Nonzero_accepts_witness :
  Nonzero_func "is zero valued" (F "name" (PString "abc")) = None.
Proof.
  apply (proj1 (Len_accepts_implies_Nonzero_accepts 1 5
                  "with an invalid length" "is zero valued"
                  (F "name" (PString "abc")))).
  - lia.
  - reflexivity.
Defined.

Lemma Len_bounds_monotone_witness :
  Len_func 0 10 "with an invalid length" (F "name" (PString "abc")) = None.
Proof.
  apply (proj1 (Len_bounds_monotone 1 5 0 10 "with an invalid length"
                  "with an invalid length" (F "name" (PString "abc")))).
  - lia.
  - lia.
  - reflexivity.
Defined.

Lemma Lazy_calls_factory_each_time_witness :
  validations 3
    (Lazy (counting_lazy (pure_validator nat (Nonzero_func "is zero valued"))))
    (F "age" (PInt 0)) 0%nat = 3%nat.
Proof.
  apply (proj1 (@Lazy_calls_factory_each_time
                  (pure_validator nat (Nonzero_func "is zero valued"))
                  (F "age" (PInt 0)) 3 0
                  (@pure_validator_stateless nat _))).
Defined.

Lemma Nested_order_irrelevant_witness :
  Permutation
    (records (fst (Validate
       (Nested [(F "city" (PString EmptyString),
                 pure_validator unit (Nonzero_func "is zero valued"));
                (F "zip" (PString "75001"),
                 pure_validator unit (Len_func 1 4 "with an invalid length"))])
       (F "address" (POther "*Address")) tt)))
    (records (fst (Validate
       (Nested [(F "zip" (PString "75001"),
                 pure_validator unit (Len_func 1 4 "with an invalid length"));
                (F "city" (PString EmptyString),
                 pure_validator unit (Nonzero_func "is zero valued"))])
       (F "address" (POther "*Address")) tt))).
Proof.
  apply (@Nested_order_irrelevant unit).
  - repeat constructor; apply pure_validator_stateless.
  - apply perm_swap.
Defined.

Lemma nested_field_inj_witness :
  F "city" (PString "Paris") = F "city" (PString "Paris").
Proof.
  apply (@nested_field_inj (F "address" (POther "*Address"))
           (F "city" (PString "Paris")) (F "city" (PString "Paris"))).
  reflexivity.
Defined.
